(** * Gossip-key rotation sidecars of consul-k8s: an embedding and its properties

    The two commands under [control-plane/subcommand] that rotate Consul's
    gossip encryption key are embedded here as executable functions:

    - [RotationSidecar]: [rotation-sidecar/command.go], driven by file-watch
      events, gated on cluster leadership, fingerprinting with MD5;
    - [Rotatoe]: [rotatoe/command.go], a plain polling loop, fingerprinting
      with CRC-32 (Castagnoli).

    Every call that leaves the process (Consul's HTTP API, the file system,
    the logger, [time.Sleep]) is recorded in a trace, and the answers come
    from an abstract environment, so the statements below quantify over
    everything the cluster may answer. *)

From Stdlib Require Import ZArith List String Ascii Bool Lia.
From stdpp Require Import base option list gmap strings.
Import ListNotations.

Local Open Scope Z_scope.

(** ** Byte strings

    A Go [string] and a Go [[]byte] are both byte sequences and the
    conversion [string(data)] copies them byte for byte, so one type serves
    for both. *)

Definition bytes_of (s : string) : list Z :=
  map (fun c => Z.of_N (N_of_ascii c)) (list_ascii_of_string s).

(** ** crypto/md5

    [md5.Sum] of Go's standard library, after RFC 1321, on 32-bit words held
    in [Z] with the wrap-around written out. *)
Module Md5.

Definition w32 (x : Z) : Z := x mod 2 ^ 32.

Definition rotl (x n : Z) : Z :=
    w32 (Z.lor (Z.shiftl x n) (Z.shiftr x (32 - n))).

Definition not32 (x : Z) : Z := Z.lxor x 0xffffffff.

Definition K : list Z :=
    [ 0xd76aa478; 0xe8c7b756; 0x242070db; 0xc1bdceee;
      0xf57c0faf; 0x4787c62a; 0xa8304613; 0xfd469501;
      0x698098d8; 0x8b44f7af; 0xffff5bb1; 0x895cd7be;
      0x6b901122; 0xfd987193; 0xa679438e; 0x49b40821;
      0xf61e2562; 0xc040b340; 0x265e5a51; 0xe9b6c7aa;
      0xd62f105d; 0x02441453; 0xd8a1e681; 0xe7d3fbc8;
      0x21e1cde6; 0xc33707d6; 0xf4d50d87; 0x455a14ed;
      0xa9e3e905; 0xfcefa3f8; 0x676f02d9; 0x8d2a4c8a;
      0xfffa3942; 0x8771f681; 0x6d9d6122; 0xfde5380c;
      0xa4beea44; 0x4bdecfa9; 0xf6bb4b60; 0xbebfbc70;
      0x289b7ec6; 0xeaa127fa; 0xd4ef3085; 0x04881d05;
      0xd9d4d039; 0xe6db99e5; 0x1fa27cf8; 0xc4ac5665;
      0xf4292244; 0x432aff97; 0xab9423a7; 0xfc93a039;
      0x655b59c3; 0x8f0ccc92; 0xffeff47d; 0x85845dd1;
      0x6fa87e4f; 0xfe2ce6e0; 0xa3014314; 0x4e0811a1;
      0xf7537e82; 0xbd3af235; 0x2ad7d2bb; 0xeb86d391 ].

Definition S : list Z :=
    [ 7; 12; 17; 22; 7; 12; 17; 22; 7; 12; 17; 22; 7; 12; 17; 22;
      5; 9; 14; 20; 5; 9; 14; 20; 5; 9; 14; 20; 5; 9; 14; 20;
      4; 11; 16; 23; 4; 11; 16; 23; 4; 11; 16; 23; 4; 11; 16; 23;
      6; 10; 15; 21; 6; 10; 15; 21; 6; 10; 15; 21; 6; 10; 15; 21 ].

Definition at_ (l : list Z) (i : Z) : Z := nth (Z.to_nat i) l 0.

  (** The four words of the running digest. *)
Record digest := Digest { dA : Z; dB : Z; dC : Z; dD : Z }.

Definition init : digest :=
    Digest 0x67452301 0xefcdab89 0x98badcfe 0x10325476.

  (** One of the 64 operations of a block; [M] holds its 16 words. *)
Definition round (M : list Z) (d : digest) (i : Z) : digest :=
    let '(Digest a b c d') := d in
    let '(f, g) :=
      if i <? 16 then (Z.lor (Z.land b c) (Z.land (not32 b) d'), i)
      else if i <? 32 then
        (Z.lor (Z.land d' b) (Z.land (not32 d') c), (5 * i + 1) mod 16)
      else if i <? 48 then (Z.lxor (Z.lxor b c) d', (3 * i + 5) mod 16)
      else (Z.lxor c (Z.lor b (not32 d')), (7 * i) mod 16) in
    let f' := w32 (f + a + at_ K i + at_ M g) in
    Digest d' (w32 (b + rotl f' (at_ S i))) b c.

Definition le_word (b0 b1 b2 b3 : Z) : Z :=
    b0 + 2 ^ 8 * b1 + 2 ^ 16 * b2 + 2 ^ 24 * b3.

Fixpoint words (bs : list Z) : list Z :=
    match bs with
    | b0 :: b1 :: b2 :: b3 :: rest => le_word b0 b1 b2 b3 :: words rest
    | _ => []
    end.

Definition block (d : digest) (blk : list Z) : digest :=
    let M := words blk in
    let r := fold_left (round M) (map Z.of_nat (seq 0 64)) d in
    Digest (w32 (dA d + dA r)) (w32 (dB d + dB r))
           (w32 (dC d + dC r)) (w32 (dD d + dD r)).

Definition le_bytes (n : nat) (x : Z) : list Z :=
    map (fun k => (x / 2 ^ (8 * Z.of_nat k)) mod 256) (seq 0 n).

  (** Padding: a 0x80 byte, zeros up to 56 modulo 64, the bit length on 64
      bits, little-endian. *)
Definition pad (bs : list Z) : list Z :=
    let len := Z.of_nat (length bs) in
    let zeros := Z.to_nat ((55 - len) mod 64) in
    bs ++ [0x80] ++ repeat 0 zeros ++ le_bytes 8 ((8 * len) mod 2 ^ 64).

Fixpoint blocks (n : nat) (d : digest) (bs : list Z) : digest :=
    match n with
    | O => d
    | Datatypes.S n' => blocks n' (block d (firstn 64 bs)) (skipn 64 bs)
    end.

  (** [md5.Sum]: the digest as its 16 bytes. *)
Definition Sum (data : string) : list Z :=
    let p := pad (bytes_of data) in
    let d := blocks (length p / 64) init p in
    le_bytes 4 (dA d) ++ le_bytes 4 (dB d) ++ le_bytes 4 (dC d)
      ++ le_bytes 4 (dD d).

End Md5.

(** ** hash/crc32

    [crc32.Checksum(data, crc32.MakeTable(crc32.Castagnoli))]: the reflected
    CRC-32C, bit by bit (the table of the library caches these eight steps
    for every byte). *)
Module Crc32.

Definition Castagnoli : Z := 0x82f63b78.

Definition step (poly crc : Z) : Z :=
    if Z.testbit crc 0 then Z.lxor (Z.shiftr crc 1) poly
    else Z.shiftr crc 1.

Definition update_byte (poly crc b : Z) : Z :=
    Nat.iter 8 (step poly) (Z.lxor crc b).

Definition Checksum (data : string) (poly : Z) : Z :=
    Z.lxor (fold_left (update_byte poly) (bytes_of data) 0xffffffff)
           0xffffffff.

End Crc32.

Local Close Scope Z_scope.

(** ** Go values and control *)
Module Go.

  (** A Go [error]: [None] is [nil]. *)
Definition error := option string.

Definition is_nil (e : error) : bool :=
    match e with None => true | Some _ => false end.

  (** How a statement ends: with a value, with a run-time panic that
      terminates the process, or blocked for ever on a channel. *)
Inductive outcome (A : Type) : Type :=
  | Ret (a : A)
  | Panic (msg : string)
  | Blocked.
  Arguments Ret {A} a.
  Arguments Panic {A} msg.
  Arguments Blocked {A}.

  (** How a statement inside a loop hands control back. *)
Inductive ctl := Normal | Break | Continue.

  (** [strings.Split(s, sep)] for a one-byte separator: the pieces between
      the occurrences of [sep], always at least one piece. *)
Fixpoint Split (s : string) (sep : ascii) : list string :=
    match s with
    | EmptyString => [EmptyString]
    | String c s' =>
        if Ascii.eqb c sep then EmptyString :: Split s' sep
        else match Split s' sep with
             | p :: ps => String c p :: ps
             | [] => [String c EmptyString]
             end
    end.

End Go.
Export Go.

(** ** The Consul API and the other collaborators *)

(** [api.KeyringResponse], the fields that matter to a rotation: for every
    key the number of members that report it, the same for the primary
    keys, and the number of members asked. *)
Record KeyringResponse := {
  Keys : gmap string Z;
  PrimaryKeys : gmap string Z;
  NumNodes : Z
}.

(** [fsnotify.Event] and the bits of [fsnotify.Op]. *)
Record FsEvent := { Name : string; Op : Z }.

Module fsnotify.
Definition Create : Z := 1.
Definition Write : Z := 2.
Definition Remove : Z := 4.
Definition Rename : Z := 8.
Definition Chmod : Z := 16.
End fsnotify.

Inductive level := Info | Error.

(** One entry per call that leaves the process, with what came back. *)
Inductive event :=
| ELeader (leader : string) (err : error)
| EReadFile (path : string) (data : string) (err : error)
| EWatcherAdd (name : string) (err : error)
| EKeyringList (resp : list KeyringResponse) (err : error)
| EKeyringInstall (key : string) (err : error)
| EKeyringUse (key : string) (err : error)
| EKeyringRemove (key : string) (err : error)
| ESleep (seconds : Z)
| ELog (lvl : level) (msg : string).

(** The calls that change the cluster's keyring. *)
Definition mutating (e : event) : bool :=
  match e with
  | EKeyringInstall _ _ | EKeyringUse _ _ | EKeyringRemove _ _ => true
  | _ => false
  end.

(** The environment: the cluster, the file system and the Go runtime, as a
    state [W] that every call may read and change. Nothing is assumed of the
    answers, except that a [range] over a map visits each of its keys once,
    in an order of the runtime's choosing. *)
Class Env (W : Type) := {
  env_Leader : W -> (string * error) * W;
  env_ReadFile : string -> W -> (string * error) * W;
  env_WatcherAdd : string -> W -> error * W;
  env_KeyringList : W -> (list KeyringResponse * error) * W;
  env_KeyringInstall : string -> W -> error * W;
  env_KeyringUse : string -> W -> error * W;
  env_KeyringRemove : string -> W -> error * W;
  env_range : gmap string Z -> W -> list string * W;
  env_range_perm : forall m w, (env_range m w).1 ≡ₚ (map_to_list m).*1
}.

(** ** Computations: environment in, outcome, environment and trace out *)

Record result (W A : Type) := Result {
  out : outcome A;
  world : W;
  trace : list event
}.
Arguments Result {W A} out world trace.
Arguments out {W A} r.
Arguments world {W A} r.
Arguments trace {W A} r.

Definition M (W A : Type) : Type := W -> result W A.

Section Monad.
  Context {W : Type}.

Definition ret {A} (a : A) : M W A := fun w => Result (Ret a) w [].

Definition panic {A} (msg : string) : M W A :=
    fun w => Result (Panic msg) w [].

Definition block {A} : M W A := fun w => Result Blocked w [].

Definition bind {A B} (m : M W A) (f : A -> M W B) : M W B :=
    fun w =>
      let r := m w in
      match out r with
      | Ret a =>
          let r' := f a (world r) in
          Result (out r') (world r') (trace r ++ trace r')
      | Panic msg => Result (Panic msg) (world r) (trace r)
      | Blocked => Result Blocked (world r) (trace r)
      end.

  (** A call to a collaborator: ask the environment, record the answer. *)
Definition call {A} (f : W -> A * W) (ev : A -> event) : M W A :=
    fun w => let '(a, w') := f w in Result (Ret a) w' [ev a].

  (** A choice of the runtime: nothing is recorded. *)
Definition choose {A} (f : W -> A * W) : M W A :=
    fun w => let '(a, w') := f w in Result (Ret a) w' [].

Definition emit (e : event) : M W unit := fun w => Result (Ret tt) w [e].

  (** [l[0]], with Go's bounds check. *)
Definition index0 {A} (l : list A) : M W A :=
    match l with
    | x :: _ => ret x
    | [] => panic "index out of range [0] with length 0"
    end.

End Monad.

Notation "x <- m ;; k" := (bind m (fun x => k))
  (at level 100, m at next level, right associativity).
Notation "m ;;; k" := (bind m (fun _ => k))
  (at level 100, right associativity).

Section Calls.
  Context {W : Type} `{Env W}.

Definition Leader : M W (string * error) :=
    call env_Leader (fun r => ELeader r.1 r.2).
Definition ReadFile (path : string) : M W (string * error) :=
    call (env_ReadFile path) (fun r => EReadFile path r.1 r.2).
Definition WatcherAdd (name : string) : M W error :=
    call (env_WatcherAdd name) (EWatcherAdd name).
Definition KeyringList : M W (list KeyringResponse * error) :=
    call env_KeyringList (fun r => EKeyringList r.1 r.2).
Definition KeyringInstall (key : string) : M W error :=
    call (env_KeyringInstall key) (EKeyringInstall key).
Definition KeyringUse (key : string) : M W error :=
    call (env_KeyringUse key) (EKeyringUse key).
Definition KeyringRemove (key : string) : M W error :=
    call (env_KeyringRemove key) (EKeyringRemove key).
Definition range (m : gmap string Z) : M W (list string) :=
    choose (env_range m).
Definition Sleep (seconds : Z) : M W unit := emit (ESleep seconds).
Definition log (lvl : level) (msg : string) : M W unit :=
    emit (ELog lvl msg).

End Calls.

(** ** Loops

    What the body of a loop asks for when it ends: to go on (normally, by
    [break] or by [continue]) or to [return] from the enclosing function. *)
Inductive flow (R : Type) : Type :=
| Go_on (c : ctl)
| Return (r : R).
Arguments Go_on {R} c.
Arguments Return {R} r.

Section Loops.
  Context {W : Type}.

  (** [for i := 0; i < n; i++ { body }] for a body that does not read [i]:
      [Some r] when the body returned [r], [None] when the loop ended. *)
Fixpoint for_times {R} (n : nat) (body : M W (flow R)) : M W (option R) :=
    match n with
    | O => ret None
    | S n' =>
        f <- body ;;
        match f with
        | Return r => ret (Some r)
        | Go_on Break => ret None
        | Go_on _ => for_times n' body
        end
    end.

  (** [for x := range xs { body }], over the keys in the order visited. *)
Fixpoint for_range {R} (xs : list string) (body : string -> M W (flow R))
    : M W (option R) :=
    match xs with
    | [] => ret None
    | x :: xs' =>
        f <- body x ;;
        match f with
        | Return r => ret (Some r)
        | Go_on Break => ret None
        | Go_on _ => for_range xs' body
        end
    end.

End Loops.

(** ** rotation-sidecar/command.go *)
Module RotationSidecar.

  (** What the [select] of [Run] receives: a file-watch event, a watcher
      error, the expiry of [time.After(600 * time.Second)], or a signal. *)
Inductive recv :=
  | RecvEvent (event : FsEvent)
  | RecvError (err : error)
  | RecvTimer
  | RecvSignal.

  (** Where the [for] of [Run] stands after the receptions so far: waiting
      in [select] for the next one, or left by a [break]. *)
Inductive loop_state :=
  | Selecting (currentChecksum : list Z)
  | Left (currentChecksum : list Z).

  Section Code.
    Context {W : Type} `{Env W}.
    Variable flagGossipEncryptionFile : string.
    Variable podIP : string.

    (** Lines 169-177: the first [range] over [keyringList[0].Keys]. The
        [continue] is that of this [range]. *)
Definition promote_body (newKey x : string) : M W (flow error) :=
      if String.eqb x newKey then
        log Info "Setting new key to primary: " ;;;
        err <- KeyringUse newKey ;;
        match err with
        | Some _ =>
            log Error "Unable to set key to primary, retrying. " ;;;
            ret (Go_on Continue)
        | None => ret (Go_on Normal)
        end
      else ret (Go_on Normal).

    (** Lines 178-185: the second [range]. *)
Definition remove_body (newKey x : string) : M W (flow error) :=
      if negb (String.eqb x newKey) then
        log Info "Deleting Key: " ;;;
        err <- KeyringRemove x ;;
        match err with
        | Some _ =>
            log Error "Unable to delete old primary key, retrying. " ;;;
            ret (Go_on Normal)
        | None => ret (Go_on Normal)
        end
      else ret (Go_on Normal).

    (** Lines 163-187: the body of [for i := 0; i < 100; i++]. *)
Definition poll_body (newKey : string) : M W (flow error) :=
      Sleep 1 ;;;
      r <- KeyringList ;;
      let (keyringList, err) := r in
      match err with
      | Some _ =>
          log Error "Unable to get keyring list, retrying." ;;;
          ret (Go_on Continue)
      | None =>
          k0 <- index0 keyringList ;;
          xs <- range (Keys k0) ;;
          p <- for_range xs (promote_body newKey) ;;
          match p with
          | Some e => ret (Return e)
          | None =>
              k0' <- index0 keyringList ;;
              ys <- range (Keys k0') ;;
              q <- for_range ys (remove_body newKey) ;;
              match q with
              | Some e => ret (Return e)
              | None =>
                  log Info "Key rotation completed: " ;;;
                  ret (Return None)
              end
          end
      end.

Definition installKey (newKey : string) : M W error :=
      r <- KeyringList ;;
      let (oldkeyringList, err) := r in
      match err with
      | Some _ =>
          log Error "unable to get old keyring list" ;;;
          ret err
      | None =>
          old0 <- index0 oldkeyringList ;;
          log Info "Old primary keys: " ;;;
          log Info "Installing new key: " ;;;
          err <- KeyringInstall newKey ;;
          match err with
          | Some _ =>
              log Error "Unable to install key to keyring: " ;;;
              ret err
          | None =>
              r <- for_times 100 (poll_body newKey) ;;
              match r with
              | Some e => ret e
              | None => ret None
              end
          end
      end.

    (** Lines 121-133: the body of [case event.Op&fsnotify.Write ==
        fsnotify.Write], with the checksum it leaves in [currentChecksum]. *)
Definition on_write (currentChecksum : list Z) : M W (ctl * list Z) :=
      log Info "Write detected, checking to see if the file changed" ;;;
      r <- ReadFile flagGossipEncryptionFile ;;
      let (data, err) := r in
      match err with
      | Some _ =>
          log Error "Unable to read secret file: " ;;;
          ret (Continue, currentChecksum)
      | None =>
          let checksum := Md5.Sum data in
          if bool_decide (checksum <> currentChecksum) then
            log Info "New Encryption Key, executing rotation: " ;;;
            err <- installKey data ;;
            match err with
            | None => ret (Normal, checksum)
            | Some _ => ret (Normal, currentChecksum)
            end
          else ret (Normal, currentChecksum)
      end.

    (** Lines 109-140: the cases of the [select]. The error of
        [Status().Leader()] is dropped; [errCh] is unbuffered and nothing
        receives from it, so the send blocks. *)
Definition select_cases (r : recv) (currentChecksum : list Z)
      : M W (ctl * list Z) :=
      match r with
      | RecvEvent event =>
          l <- Leader ;;
          let leader := l.1 in
          if String.eqb leader "" then ret (Continue, currentChecksum)
          else
            host <- index0 (Split leader ":") ;;
            if negb (String.eqb host podIP) then ret (Continue, currentChecksum)
            else if Z.eqb (Z.land (Op event) fsnotify.Remove) fsnotify.Remove
            then
              WatcherAdd (Name event) ;;;
              on_write currentChecksum
            else if Z.eqb (Z.land (Op event) fsnotify.Write) fsnotify.Write
            then on_write currentChecksum
            else ret (Normal, currentChecksum)
      | RecvError err => block
      | RecvTimer =>
          log Info "Reconcile Timer." ;;;
          ret (Normal, currentChecksum)
      | RecvSignal => ret (Break, currentChecksum)
      end.

    (** The [select] statement: a [break] in one of its cases ends the
        [select], not the loop around it. *)
Definition select_stmt (r : recv) (currentChecksum : list Z)
      : M W (ctl * list Z) :=
      x <- select_cases r currentChecksum ;;
      ret (match x.1 with Break => Normal | c => c end, x.2).

    (** Lines 107-142: [for { select { ... } }] over the receptions [rs]. *)
Fixpoint for_select (rs : list recv) (currentChecksum : list Z)
      : M W loop_state :=
      match rs with
      | [] => ret (Selecting currentChecksum)
      | r :: rs' =>
          x <- select_stmt r currentChecksum ;;
          match x.1 with
          | Break => ret (Left x.2)
          | _ => for_select rs' x.2
          end
      end.

    (** [Run] from line 99 on: [Some code] when it returned, [None] while
        the loop is waiting for its next reception. After the loop, line 144
        receives from [errCh], on which nothing is ever sent. *)
Definition Run (rs : list recv) : M W (option Z) :=
      r <- ReadFile flagGossipEncryptionFile ;;
      let (data, err) := r in
      match err with
      | Some _ =>
          log Error "Unable to read secret file: " ;;;
          ret (Some 1%Z)
      | None =>
          st <- for_select rs (Md5.Sum data) ;;
          match st with
          | Selecting _ => ret None
          | Left _ => block
          end
      end.

  End Code.
End RotationSidecar.

(** ** rotatoe/command.go *)
Module Rotatoe.
  Section Code.
    Context {W : Type} `{Env W}.
    Variable flagWatchFile : string.

    (** Lines 135-152: the body of [for i := 0; i < 100; i++]. The guard
        [keyringList != nil] of line 142 protects only the log of line 143:
        on a slice of length 0, nil or not, the next index expression
        evaluated panics before anything else is called. *)
Definition poll_body (newKey : string) : M W (flow error) :=
      Sleep 10 ;;;
      r <- KeyringList ;;
      let (keyringList, err) := r in
      match err with
      | Some _ =>
          log Error "===== unable to get keyring list =====" ;;;
          ret (Go_on Continue)
      | None =>
          log Error "=== keyringList: %v" ;;;
          match keyringList with
          | [] => ret tt
          | _ :: _ => k <- index0 keyringList ;; log Error " keys: %v: %v"
          end ;;;
          k0 <- index0 keyringList ;;
          match Keys k0 !! newKey with
          | Some _ =>
              log Error "found updated key" ;;;
              err <- KeyringUse newKey ;;
              match err with
              | Some _ =>
                  log Error "===== unable to set keyring to use new key ====="
              | None => ret tt
              end ;;;
              ret (Return None)
          | None => ret (Go_on Normal)
          end
      end.

Definition installKey (newKey : string) : M W error :=
      err <- KeyringInstall newKey ;;
      match err with
      | Some _ => log Error "unable to add key to keyring: %s"
      | None => ret tt
      end ;;;
      r <- for_times 100 (poll_body newKey) ;;
      match r with
      | Some e => ret e
      | None => ret None
      end.

    (** Lines 109-122: one turn of the [for] of [Run], with the checksum it
        leaves in [currentCRC]. Line 118 assigns [chksum] to [currentCRC]
        before [installKey] is called and nothing assigns it afterwards, so
        the turn ends with [chksum] whatever [installKey] returned. *)
Definition iteration (currentCRC : Z) : M W Z :=
      Sleep 10 ;;;
      r <- ReadFile flagWatchFile ;;
      let (inputFileContents, err) := r in
      log Error "========== Current inputFile: %v" ;;;
      match err with
      | Some _ => log Error "unable to read file"
      | None => ret tt
      end ;;;
      let chksum := Crc32.Checksum inputFileContents Crc32.Castagnoli in
      log Error "===== checksum: %s / %s " ;;;
      if negb (Z.eqb chksum currentCRC) then
        err <- installKey inputFileContents ;;
        log Error " ========== FINISHED UPDATING GOSSIP KEY =========" ;;;
        ret chksum
      else ret currentCRC.

Fixpoint iterations (n : nat) (currentCRC : Z) : M W Z :=
      match n with
      | O => ret currentCRC
      | S n' => c <- iteration currentCRC ;; iterations n' c
      end.

    (** [Run] from line 102 on, for [n] turns of its endless loop; the error
        of the first read is dropped. *)
Definition Run (n : nat) : M W Z :=
      r <- ReadFile flagWatchFile ;;
      log Error "========== Original inputFile: %v" ;;;
      iterations n (Crc32.Checksum r.1 Crc32.Castagnoli).

  End Code.
End Rotatoe.

(** ** A scripted environment

    An environment that answers each kind of call from a list prepared in
    advance, one answer per call; when a list runs out the call fails. It
    serves to run the code above on concrete scenarios. *)
Module Script.

Record t := Make {
    leaders : list (string * error);
    files : list (string * error);
    lists : list (list KeyringResponse * error);
    installs : list error;
    uses : list error;
    removes : list error
  }.

Definition eof : error := Some "no answer".

Definition next {A} (d : A) (l : list A) : A * list A :=
    match l with
    | [] => (d, [])
    | x :: l' => (x, l')
    end.

Definition leader (s : t) : (string * error) * t :=
    let (a, l) := next ("", eof) (leaders s) in
    (a, Make l (files s) (lists s) (installs s) (uses s) (removes s)).
Definition file (s : t) : (string * error) * t :=
    let (a, l) := next ("", eof) (files s) in
    (a, Make (leaders s) l (lists s) (installs s) (uses s) (removes s)).
Definition list_ (s : t) : (list KeyringResponse * error) * t :=
    let (a, l) := next ([], eof) (lists s) in
    (a, Make (leaders s) (files s) l (installs s) (uses s) (removes s)).
Definition install (s : t) : error * t :=
    let (a, l) := next eof (installs s) in
    (a, Make (leaders s) (files s) (lists s) l (uses s) (removes s)).
Definition use (s : t) : error * t :=
    let (a, l) := next eof (uses s) in
    (a, Make (leaders s) (files s) (lists s) (installs s) l (removes s)).
Definition remove (s : t) : error * t :=
    let (a, l) := next eof (removes s) in
    (a, Make (leaders s) (files s) (lists s) (installs s) (uses s) l).

Definition keys_of (m : gmap string Z) (s : t) : list string * t :=
    ((map_to_list m).*1, s).

#[global] Instance env : Env t := {|
    env_Leader := leader;
    env_ReadFile := fun _ => file;
    env_WatcherAdd := fun _ s => (None, s);
    env_KeyringList := list_;
    env_KeyringInstall := fun _ => install;
    env_KeyringUse := fun _ => use;
    env_KeyringRemove := fun _ => remove;
    env_range := keys_of;
    env_range_perm := fun m _ => Permutation_refl _
  |}.

  (** A response of a three-member cluster listing the given keys. *)
Definition response (keys primary : list (string * Z)) : KeyringResponse :=
    {| Keys := list_to_map keys; PrimaryKeys := list_to_map primary;
       NumNodes := 3 |}.

End Script.


(** * Vocabulary of the properties *)

(** ** Events *)

Definition is_read (e : event) : bool :=
  match e with EReadFile _ _ _ => true | _ => false end.

Definition is_install (e : event) : bool :=
  match e with EKeyringInstall _ _ => true | _ => false end.

Definition is_use (e : event) : bool :=
  match e with EKeyringUse _ _ => true | _ => false end.

Definition is_sleep (e : event) : bool :=
  match e with ESleep _ => true | _ => false end.

(** No call that changes the keyring. *)
Definition quiet (t : list event) : Prop :=
  Forall (fun e => mutating e = false) t.

(** The calls of [t] that change the keyring, in order. *)
Definition mutations (t : list event) : list event := List.filter mutating t.

(** An event that neither changes the keyring nor reads the file. *)
Definition idle (e : event) : Prop := mutating e = false /\ is_read e = false.

(** All the reads recorded in [t] returned the bytes [data]. *)
Definition reads_only (data : string) (t : list event) : Prop :=
  forall path d err, In (EReadFile path d err) t -> d = data.

(** The same, as a check that can be run. *)
Definition reads_onlyb (data : string) (t : list event) : bool :=
  forallb (fun e => match e with
                    | EReadFile _ d _ => String.eqb d data
                    | _ => true
                    end) t.

(** The number of poll iterations begun in [t]: each begins by sleeping. *)
Definition polls (t : list event) : nat := length (List.filter is_sleep t).

(** ** Traces of composed computations

    A property of traces that holds of the empty trace and is kept by
    concatenation holds of a computation as soon as it holds of its parts. *)
Record compositional (P : list event -> Prop) : Prop := {
  comp_nil : P [];
  comp_app : forall t1 t2, P t1 -> P t2 -> P (t1 ++ t2)
}.

(** The result [r] after the events [t]. *)
Definition prepend {W A} (t : list event) (r : result W A) : result W A :=
  Result (out r) (world r) (t ++ trace r).

(** ** Leadership

    Whether lines 110-115 of rotation-sidecar let a reception through: the
    leader is known and the part of its address before the first colon is
    this pod's address. *)
Definition authorized (leader podIP : string) : bool :=
  negb (String.eqb leader "") &&
  String.eqb (hd EmptyString (Split leader ":")) podIP.

(** Leader-only mutation, for the trace [t] of one tick taken while the
    cluster reports [leader]. *)
Definition leader_only (leader podIP : string) (t : list event) : Prop :=
  authorized leader podIP = false -> quiet t.

(** What the [select] makes of the way one of its cases ended. *)
Definition end_select (o : outcome (ctl * list Z)) : outcome (ctl * list Z) :=
  match o with
  | Ret x => Ret (match x.1 with Break => Normal | c => c end, x.2)
  | Panic msg => Panic msg
  | Blocked => Blocked
  end.

(** ** Promotion *)

(** [KeyringUse] on [key] happens in [t] only after a [KeyringList] answer
    whose first response satisfies [ok]. *)
Definition promoted_only_after
    (ok : string -> KeyringResponse -> Prop) (key : string) (t : list event)
  : Prop :=
  forall pre e post,
    t = pre ++ EKeyringUse key e :: post ->
    exists r rs, In (EKeyringList (r :: rs) None) pre /\ ok key r.

(** The key is reported by as many members as were asked. *)
Definition propagated (key : string) (r : KeyringResponse) : Prop :=
  Keys r !! key = Some (NumNodes r).

(** The key is among those listed, whatever its count. *)
Definition listed (key : string) (r : KeyringResponse) : Prop :=
  is_Some (Keys r !! key).

(** ** Detection *)

(** A tick whose read failed or returned no bytes installs nothing. *)
Definition tolerates_bad_read (t : list event) : Prop :=
  forall path data err,
    In (EReadFile path data err) t ->
    err <> None \/ data = EmptyString ->
    Forall (fun e => is_install e = false) t.

(** A tick that replaces the committed checksum [cur] by [cur'] has seen
    the promotion of [key] succeed. *)
Definition commits_only_after_promotion {C : Type}
    (key : string) (cur cur' : C) (t : list event) : Prop :=
  cur' <> cur -> In (EKeyringUse key None) t.

(** In rotation-sidecar, once the install and the list that follows it have
    succeeded, [installKey] returns [nil]. *)
Definition returns_nil_after_first_list {W : Type} `{Env W}
    (key : string) (w : W) : Prop :=
  forall r0 rs0 w1 w2 kl w3,
    env_KeyringList w = ((r0 :: rs0, None), w1) ->
    env_KeyringInstall key w1 = (None, w2) ->
    env_KeyringList w2 = ((kl, None), w3) ->
    out (RotationSidecar.installKey key w) = Ret None.

(** ** Scenarios

    Concrete environments, for a three-member cluster whose keyring holds
    the key [old] when the file changes to [new]. *)
Module Scenario.

Definition file : string := "/consul/gossip/gossip.key".
Definition podIP : string := "10.0.0.1".
Definition leader_here : string * error := ("10.0.0.1:8300", None).
Definition leader_elsewhere : string * error := ("10.0.0.2:8300", None).
Definition refused : error := Some "not all members have the key".

Definition write_event : FsEvent := {| Name := file; Op := fsnotify.Write |}.

(** Every member holds [old]; nobody holds [new]. *)
Definition old_only : KeyringResponse :=
  Script.response [("old", 3%Z)] [("old", 3%Z)].

(** [new] has reached one member of three. *)
Definition new_on_one : KeyringResponse :=
  Script.response [("old", 3%Z); ("new", 1%Z)] [("old", 3%Z)].

(** The install is accepted and [new] is listed by one member; the
    promotion is then refused. *)
Definition promotion_refused : Script.t :=
  Script.Make [] []
    [([old_only], None); ([new_on_one], None)] [None] [refused] [None].

(** The install is accepted but the next list does not show [new] yet. *)
Definition key_not_listed : Script.t :=
  Script.Make [] []
    [([old_only], None); ([old_only], None)] [None] [] [None].

(** The install is accepted, [new] is listed by one member of three, and
    every later call succeeds. *)
Definition early_promotion : Script.t :=
  Script.Make [] []
    [([old_only], None); ([new_on_one], None)] [None] [None] [None].

(** The same for rotatoe, which lists only after installing. *)
Definition early_promotion_rotatoe : Script.t :=
  Script.Make [] [] [([new_on_one], None)] [None] [None] [].

(** The leader cannot be determined; the file holds [new]. *)
Definition leader_unknown : Script.t :=
  Script.Make [] [("new", None)] [([new_on_one], None)] [None] [None] [].

(** This pod is with the leader and the file is read empty, without error. *)
Definition empty_read : Script.t :=
  Script.Make [leader_here] [("", None)]
    [([old_only], None); ([old_only], None)] [None] [] [None].

(** The file holds [new] at two successive reads; no keyring call succeeds. *)
Definition nothing_works : Script.t :=
  Script.Make [] [("new", None); ("new", None)] [] [] [] [].

(** This pod is with the leader, the file holds [new] and the install is
    accepted, but no list succeeds after it. *)
Definition lists_fail : Script.t :=
  Script.Make [leader_here] [("new", None)] [([old_only], None)] [None] [] [].

(** This pod is with the leader when the write arrives, the file holds
    [new], and the cluster accepts every call. *)
Definition rotation_goes_through : Script.t :=
  Script.Make [leader_here] [("new", None)]
    [([old_only], None); ([new_on_one], None)] [None] [None] [None].

(** The first list succeeds with no response in it. *)
Definition first_list_empty : Script.t :=
  Script.Make [] [] [([], None)] [None] [] [].

(** The list polled after the install succeeds with no response in it. *)
Definition polled_list_empty : Script.t :=
  Script.Make [] [] [([old_only], None); ([], None)] [None] [] [].

(** The leader is another pod when the write arrives. *)
Definition not_leader : Script.t :=
  Script.Make [leader_elsewhere] [("new", None)]
    [([old_only], None); ([new_on_one], None)] [None] [None] [None].

(** This pod is with the leader and the file cannot be read. *)
Definition unreadable : Script.t :=
  Script.Make [leader_here] [("", Some "permission denied")]
    [([old_only], None); ([new_on_one], None)] [None] [None] [None].

(** The file holds [new], already committed, at two writes. *)
Definition same_content : Script.t :=
  Script.Make [leader_here; leader_here] [("new", None); ("new", None)]
    [([old_only], None); ([new_on_one], None)] [None] [None] [None].

(** [new] is listed, its promotion is refused and so is the removal. *)
Definition all_refused : Script.t :=
  Script.Make [] []
    [([old_only], None); ([new_on_one], None)] [None] [refused] [refused].

End Scenario.

(** * Properties *)

(** ** The checksums on known vectors *)

Example md5_empty :
  Md5.Sum ""
  = [212; 29; 140; 217; 143; 0; 178; 4; 233; 128; 9; 152; 236; 248; 66; 126]%Z.
Proof. vm_compute. reflexivity. Qed.

Example md5_abc :
  Md5.Sum "abc"
  = [144; 1; 80; 152; 60; 210; 79; 176; 214; 150; 63; 125; 40; 225; 127; 114]%Z.
Proof. vm_compute. reflexivity. Qed.

Example md5_two_blocks :
  Md5.Sum "aaaaaaaaaaaaaaaaaaaaaaaaaaaaaaaaaaaaaaaaaaaaaaaaaaaaaaaaaaaa"
  = [204; 126; 214; 105; 207; 136; 242; 1; 195; 41; 124; 106; 145; 225; 209; 141]%Z.
Proof. vm_compute. reflexivity. Qed.

Example crc32c_check :
  Crc32.Checksum "123456789" Crc32.Castagnoli = 0xe3069283%Z.
Proof. vm_compute. reflexivity. Qed.

Example split_leader : Split "10.0.0.1:8300" ":" = ["10.0.0.1"; "8300"].
Proof. reflexivity. Qed.

(** [strings.Split] never returns an empty slice, so indexing its first
    piece cannot panic. *)
Lemma Split_cons (s : string) (sep : ascii) :
  exists p ps, Split s sep = p :: ps.
Proof.
  induction s as [|c s IH]; simpl; [eauto|].
  destruct (Ascii.eqb c sep); [eauto|].
  destruct IH as (p & ps & ->). eauto.
Qed.

(** ** Traces of composed computations *)

Lemma Forall_compositional (Q : event -> Prop) : compositional (Forall Q).
Proof.
  split; [constructor|].
  intros t1 t2 H1 H2. apply Forall_app. split; assumption.
Qed.

Section TraceLemmas.
Context {W : Type}.
Variable P : list event -> Prop.
Hypothesis HP : compositional P.

Lemma bind_trace {A B} (m : M W A) (f : A -> M W B) (w : W) :
  P (trace (m w)) ->
  (forall a w', P (trace (f a w'))) ->
  P (trace (bind m f w)).
Proof.
  intros Hm Hf. unfold bind.
  destruct (out (m w)); simpl; auto.
  apply (comp_app P HP); auto.
Qed.

Lemma ret_trace {A} (a : A) (w : W) : P (trace (ret a w)).
Proof. apply (comp_nil P HP). Qed.

Lemma index0_trace {A} (l : list A) (w : W) : P (trace (index0 l w)).
Proof. destruct l; apply (comp_nil P HP). Qed.

Lemma choose_trace {A} (f : W -> A * W) (w : W) : P (trace (choose f w)).
Proof. unfold choose. destruct (f w). apply (comp_nil P HP). Qed.

Lemma for_times_trace {R} (body : M W (flow R)) :
  (forall w, P (trace (body w))) ->
  forall n w, P (trace (for_times n body w)).
Proof.
  intros Hbody n. induction n as [|n IH]; intros w; simpl.
  - apply (comp_nil P HP).
  - apply bind_trace; [apply Hbody|].
    intros [[| |]|r] w'; auto; apply (comp_nil P HP).
Qed.

Lemma for_range_trace {R} (body : string -> M W (flow R)) :
  (forall x w, P (trace (body x w))) ->
  forall xs w, P (trace (for_range xs body w)).
Proof.
  intros Hbody xs. induction xs as [|x xs IH]; intros w; simpl.
  - apply (comp_nil P HP).
  - apply bind_trace; [apply Hbody|].
    intros [[| |]|r] w'; auto; apply (comp_nil P HP).
Qed.

End TraceLemmas.

(** The tactic [trace_walk] walks down a computation for a property of
    traces that is compositional, leaving the events to be checked. *)
Ltac trace_step HP :=
  lazymatch goal with
  | |- _ (trace (bind _ _ _)) => apply (bind_trace _ HP); [|intros ? ?]
  | |- _ (trace (ret _ _)) => apply (ret_trace _ HP)
  | |- _ (trace (panic _ _)) => apply (comp_nil _ HP)
  | |- _ (trace (block _)) => apply (comp_nil _ HP)
  | |- _ (trace (index0 _ _)) => apply (index0_trace _ HP)
  | |- _ (trace (choose _ _)) => apply (choose_trace _ HP)
  | |- _ (trace (range _ _)) => apply (choose_trace _ HP)
  | |- _ (trace (call ?f _ ?w)) => unfold call; destruct (f w); simpl
  | |- _ (trace (emit _ _)) => simpl
  | |- _ (trace (for_times _ _ _)) => apply (for_times_trace _ HP); intros ?
  | |- _ (trace (for_range _ _ _)) => apply (for_range_trace _ HP); intros ? ?
  | |- _ (trace (match ?x with _ => _ end _)) => destruct x
  end.

Ltac trace_walk HP := repeat trace_step HP.

Ltac unfold_calls :=
  unfold Leader, ReadFile, WatcherAdd, KeyringList, KeyringInstall,
    KeyringUse, KeyringRemove, range, Sleep, log in *.

(** ** Running a computation step by step *)

Section Stepping.
Context {W : Type} {A B : Type}.
Implicit Types (k : A -> M W B) (w : W).

Lemma bind_ret (a : A) k w : bind (ret a) k w = k a w.
Proof. unfold bind, ret; simpl. destruct (k a w); reflexivity. Qed.

Lemma bind_panic (msg : string) k w :
  bind (panic msg) k w = Result (Panic msg) w [].
Proof. reflexivity. Qed.

Lemma bind_block k w : bind block k w = Result Blocked w [].
Proof. reflexivity. Qed.

Lemma bind_call (f : W -> A * W) (ev : A -> event) k w :
  bind (call f ev) k w = prepend [ev (f w).1] (k (f w).1 (f w).2).
Proof. unfold bind, call, prepend. destruct (f w); reflexivity. Qed.

Lemma bind_choose (f : W -> A * W) k w :
  bind (choose f) k w = k (f w).1 (f w).2.
Proof.
  unfold bind, choose. destruct (f w) as [a w']; simpl.
  destruct (k a w'); reflexivity.
Qed.

Lemma bind_index0_cons (x : A) (l : list A) k w :
  bind (index0 (x :: l)) k w = k x w.
Proof. apply bind_ret. Qed.

Lemma bind_index0_nil k w :
  bind (index0 []) k w
  = Result (Panic "index out of range [0] with length 0") w [].
Proof. reflexivity. Qed.

Lemma bind_bind {C} (m : M W C) (f : C -> M W A) k w :
  bind (bind m f) k w = bind m (fun c => bind (f c) k) w.
Proof.
  unfold bind. destruct (out (m w)); simpl; try reflexivity.
  destruct (out (f a (world (m w)))); simpl; try reflexivity.
  rewrite app_assoc. reflexivity.
Qed.

(** What a sequence did, from what its first part did. *)
Lemma bind_run (m : M W A) k w (a : A) :
  out (m w) = Ret a ->
  bind m k w = prepend (trace (m w)) (k a (world (m w))).
Proof. intros Hm. unfold bind, prepend. rewrite Hm. reflexivity. Qed.

Lemma bind_out_Ret (m : M W A) k w (b : B) :
  out (bind m k w) = Ret b ->
  exists a, out (m w) = Ret a /\ out (k a (world (m w))) = Ret b.
Proof.
  unfold bind. destruct (out (m w)) as [a| |]; simpl; try discriminate.
  intros Hk. exists a. split; [reflexivity|assumption].
Qed.

Lemma bind_In (m : M W A) k w (e : event) :
  In e (trace (bind m k w)) ->
  In e (trace (m w)) \/
  exists a, out (m w) = Ret a /\ In e (trace (k a (world (m w)))).
Proof.
  unfold bind. destruct (out (m w)) as [a| |]; simpl; auto.
  intros Hin. apply in_app_or in Hin as [Hin|Hin]; eauto.
Qed.

End Stepping.

Lemma bind_emit {W B} (e : event) (k : unit -> M W B) (w : W) :
  bind (emit e) k w = prepend [e] (k tt w).
Proof. reflexivity. Qed.

Lemma for_times_S {W R} (n : nat) (body : M W (flow R)) :
  for_times (S n) body =
  (f <- body ;;
   match f with
   | Return r => ret (Some r)
   | Go_on Break => ret None
   | Go_on _ => for_times n body
   end).
Proof. reflexivity. Qed.

Lemma prepend_prepend {W A} (t1 t2 : list event) (r : result W A) :
  prepend t1 (prepend t2 r) = prepend (t1 ++ t2) r.
Proof. unfold prepend; simpl. rewrite app_assoc. reflexivity. Qed.

Lemma out_prepend {W A} (t : list event) (r : result W A) :
  out (prepend t r) = out r.
Proof. reflexivity. Qed.

Lemma world_prepend {W A} (t : list event) (r : result W A) :
  world (prepend t r) = world r.
Proof. reflexivity. Qed.

Lemma trace_prepend {W A} (t : list event) (r : result W A) :
  trace (prepend t r) = t ++ trace r.
Proof. reflexivity. Qed.

Ltac mrewrite :=
  repeat first
    [ rewrite bind_bind
    | rewrite bind_ret
    | rewrite bind_call
    | rewrite bind_emit
    | rewrite bind_choose
    | rewrite bind_index0_cons
    | rewrite bind_index0_nil
    | rewrite bind_panic
    | rewrite bind_block
    | rewrite prepend_prepend
    | rewrite out_prepend
    | rewrite world_prepend
    | rewrite trace_prepend ].

(** [mstep] runs the calls at the head of a computation; [mfin] reads off
    the result once no call is left. *)
Ltac mstep :=
  repeat (progress (mrewrite; cbn [out world trace fst snd app])).

Ltac mfin :=
  unfold prepend, ret, panic, block; cbn [out world trace fst snd app].

(** A [range] whose body neither returns nor breaks runs to its end. *)
Lemma for_range_runs {W R} (body : string -> M W (flow R)) :
  (forall x w, exists c, out (body x w) = Ret (Go_on c) /\ c <> Break) ->
  forall xs w, out (for_range xs body w) = Ret None.
Proof.
  intros Hbody xs. induction xs as [|x xs IH]; intros w; cbn [for_range].
  - reflexivity.
  - destruct (Hbody x w) as (c & Hout & Hc).
    rewrite (bind_run _ _ _ _ Hout). rewrite out_prepend.
    destruct c; [apply IH|congruence|apply IH].
Qed.

(** ** Facts about traces *)

Lemma idle_not_read (t : list event) (e : event) :
  Forall idle t -> In e t -> is_read e = false.
Proof.
  intros Ht Hin. apply (proj1 (List.Forall_forall _ _) Ht) in Hin. apply Hin.
Qed.

Lemma idle_quiet (t : list event) : Forall idle t -> quiet t.
Proof. apply List.Forall_impl. intros e [He _]. exact He. Qed.

Lemma quiet_mutations (t : list event) : quiet t <-> mutations t = [].
Proof.
  unfold quiet, mutations. induction t as [|e t IH]; cbn.
  - split; [reflexivity|constructor].
  - destruct (mutating e) eqn:He; split.
    + intros Hq. inversion Hq; congruence.
    + discriminate.
    + intros Hq. apply IH. inversion Hq; assumption.
    + intros Hm. constructor; [assumption|]. apply IH. assumption.
Qed.

Lemma reads_only_app (data : string) (t1 t2 : list event) :
  reads_only data (t1 ++ t2) -> reads_only data t1 /\ reads_only data t2.
Proof.
  intros Hr. split; intros path d err Hin; apply (Hr path d err);
    apply in_or_app; auto.
Qed.

Lemma polls_app (t1 t2 : list event) :
  polls (t1 ++ t2) = (polls t1 + polls t2)%nat.
Proof. unfold polls. rewrite List.filter_app, length_app. reflexivity. Qed.

Lemma polls_none (t : list event) :
  Forall (fun e => is_sleep e = false) t -> polls t = 0%nat.
Proof.
  unfold polls. induction 1 as [|e t He _ IH]; cbn; [reflexivity|].
  rewrite He. exact IH.
Qed.

(** ** Promotion and removal inside [installKey] *)

Section Promotion.
Variable ok : string -> KeyringResponse -> Prop.
Variable key : string.

Lemma promoted_only_after_no_use (t : list event) :
  Forall (fun e => is_use e = false) t -> promoted_only_after ok key t.
Proof.
  intros Hno pre err post ->.
  apply Forall_app in Hno as [_ Hno]. inversion Hno as [|? ? Hu _]; subst.
  discriminate Hu.
Qed.

Lemma promoted_only_after_compositional :
  compositional (promoted_only_after ok key).
Proof.
  split.
  - intros [|a0 pre] err post Heq; discriminate Heq.
  - intros t1 t2 H1 H2 pre e post Heq.
    apply app_eq_app in Heq as [l [[-> Hl]|[-> Hl]]].
    + destruct l as [|x l]; cbn in Hl.
      * subst t2. destruct (H2 [] e post eq_refl) as (r & rs & [] & _).
      * injection Hl as <- ->.
        destruct (H1 pre e l eq_refl) as (r & rs & Hin & Hok). eauto.
    + destruct (H2 l e post Hl) as (r & rs & Hin & Hok).
      exists r, rs. split; [apply in_or_app; auto|assumption].
Qed.

(** Whatever follows a qualifying list is covered by it. *)
Lemma promoted_only_after_list (e0 : event) r rs (t : list event) :
  is_use e0 = false -> ok key r ->
  promoted_only_after ok key (e0 :: EKeyringList (r :: rs) None :: t).
Proof.
  intros He0 Hok pre e post Heq.
  destruct pre as [|a [|b pre]]; cbn in Heq.
  - inversion Heq; subst. discriminate He0.
  - inversion Heq.
  - inversion Heq; subst. exists r, rs.
    split; [right; left; reflexivity|assumption].
Qed.

End Promotion.

Section InstallKey.
Context {W : Type} `{Env W}.
Variable key : string.

(** The keys a [range] visits are keys of the map. *)
Lemma range_listed (k0 : KeyringResponse) (w : W) :
  In key (env_range (Keys k0) w).1 -> listed key k0.
Proof.
  intros Hin. apply list_elem_of_In in Hin.
  rewrite (env_range_perm (Keys k0) w) in Hin.
  apply list_elem_of_fmap in Hin as ([k v] & -> & Hin).
  apply elem_of_map_to_list in Hin. cbn. unfold listed. eauto.
Qed.

Lemma rs_promote_loop_no_use :
  forall (xs : list string) (w : W),
  ~ In key xs ->
  Forall (fun e => is_use e = false)
         (trace (for_range xs (RotationSidecar.promote_body key) w)).
Proof.
  induction xs as [|x xs IH]; intros w Hnot; cbn [for_range].
  - constructor.
  - unfold RotationSidecar.promote_body at 1.
    destruct (String.eqb_spec x key) as [->|Hne].
    { exfalso. apply Hnot. left; reflexivity. }
    mstep. apply IH. intros Hin. apply Hnot. right; assumption.
Qed.

Lemma rs_remove_loop_no_use (xs : list string) (w : W) :
  Forall (fun e => is_use e = false)
         (trace (for_range xs (RotationSidecar.remove_body key) w)).
Proof.
  pose proof (Forall_compositional (fun e => is_use e = false)) as HP.
  apply (for_range_trace _ HP). intros x w'.
  unfold RotationSidecar.remove_body. unfold_calls.
  trace_walk HP; repeat constructor.
Qed.

Lemma rs_poll_body_promotes_listed (w : W) :
  promoted_only_after listed key (trace (RotationSidecar.poll_body key w)).
Proof.
  unfold RotationSidecar.poll_body. unfold_calls. mstep.
  destruct (env_KeyringList w) as [[kl [err|]] w1]; mstep; mfin.
  { apply promoted_only_after_no_use. repeat constructor. }
  destruct kl as [|k0 kl]; mstep; mfin.
  { apply promoted_only_after_no_use. repeat constructor. }
  destruct (in_dec string_dec key (env_range (Keys k0) w1).1) as [Hin|Hnot].
  - apply promoted_only_after_list; [reflexivity|].
    eapply range_listed; eassumption.
  - apply promoted_only_after_no_use.
    pose proof (Forall_compositional (fun e => is_use e = false)) as HP.
    constructor; [reflexivity|]. constructor; [reflexivity|].
    apply (bind_trace _ HP); [apply rs_promote_loop_no_use; assumption|].
    intros [e|] w'; [apply (ret_trace _ HP)|]. mstep.
    apply (bind_trace _ HP); [apply rs_remove_loop_no_use|].
    intros [e|] w''; [apply (ret_trace _ HP)|]. unfold_calls.
    trace_walk HP; cbn; repeat constructor.
Qed.

Lemma rs_installKey_promotes_listed (w : W) :
  promoted_only_after listed key (trace (RotationSidecar.installKey key w)).
Proof.
  pose proof (promoted_only_after_compositional listed key) as HP.
  unfold RotationSidecar.installKey. unfold_calls. trace_walk HP.
  all: try apply rs_poll_body_promotes_listed.
  all: apply promoted_only_after_no_use; repeat constructor.
Qed.

Lemma rt_poll_body_promotes_listed (w : W) :
  promoted_only_after listed key (trace (Rotatoe.poll_body key w)).
Proof.
  unfold Rotatoe.poll_body. unfold_calls. mstep.
  destruct (env_KeyringList w) as [[kl [err|]] w1]; mstep; mfin.
  { apply promoted_only_after_no_use. repeat constructor. }
  destruct kl as [|k0 kl]; mstep; mfin.
  { apply promoted_only_after_no_use. repeat constructor. }
  destruct (Keys k0 !! key) as [n|] eqn:Hk; mstep; mfin.
  - apply promoted_only_after_list; [reflexivity|].
    unfold listed. rewrite Hk. eauto.
  - apply promoted_only_after_no_use. repeat constructor.
Qed.

Lemma rt_installKey_promotes_listed (w : W) :
  promoted_only_after listed key (trace (Rotatoe.installKey key w)).
Proof.
  pose proof (promoted_only_after_compositional listed key) as HP.
  unfold Rotatoe.installKey. unfold_calls. trace_walk HP.
  all: try apply rt_poll_body_promotes_listed.
  all: apply promoted_only_after_no_use; repeat constructor.
Qed.

(** rotatoe never removes a key. *)
Lemma rt_installKey_never_removes (w : W) :
  Forall (fun e => match e with EKeyringRemove _ _ => False | _ => True end)
         (trace (Rotatoe.installKey key w)).
Proof.
  match goal with |- Forall ?Q _ => pose proof (Forall_compositional Q) as HP end.
  unfold Rotatoe.installKey, Rotatoe.poll_body. unfold_calls.
  trace_walk HP; cbn; repeat constructor.
Qed.

End InstallKey.

(** C1 (the code departs from it). In rotation-sidecar the second [range] of
    a poll iteration runs whatever the first one did. When [KeyringUse] on
    the new key is refused, the [continue] of line 174 resumes the first
    [range], not the poll loop, and [KeyringRemove] is called on the old key
    all the same; when the new key is not listed at all, [KeyringUse] is not
    even tried and the old key is removed. Both runs return [nil]. *)
Theorem rs_installKey_removes_without_promotion :
  out (RotationSidecar.installKey "new" Scenario.promotion_refused) = Ret None /\
  mutations (trace (RotationSidecar.installKey "new" Scenario.promotion_refused))
  = [EKeyringInstall "new" None;
     EKeyringUse "new" Scenario.refused;
     EKeyringRemove "old" None] /\
  out (RotationSidecar.installKey "new" Scenario.key_not_listed) = Ret None /\
  mutations (trace (RotationSidecar.installKey "new" Scenario.key_not_listed))
  = [EKeyringInstall "new" None; EKeyringRemove "old" None].
Proof. vm_compute. repeat split; reflexivity. Qed.

(** C2, as stated, fails: in both commands [KeyringUse] is called on a key
    that one member of three reports, no list having shown it on all. *)
Lemma promotion_without_full_propagation :
  ~ promoted_only_after propagated "new"
      (trace (RotationSidecar.installKey "new" Scenario.early_promotion)) /\
  ~ promoted_only_after propagated "new"
      (trace (Rotatoe.installKey "new" Scenario.early_promotion_rotatoe)).
Proof.
  split; intros Hc.
  - destruct (Hc [EKeyringList [Scenario.old_only] None;
                  ELog Info "Old primary keys: ";
                  ELog Info "Installing new key: ";
                  EKeyringInstall "new" None; ESleep 1;
                  EKeyringList [Scenario.new_on_one] None;
                  ELog Info "Setting new key to primary: "]
                 None
                 [ELog Info "Deleting Key: "; EKeyringRemove "old" None;
                  ELog Info "Key rotation completed: "])
      as (r & rs & Hin & Hok); [vm_compute; reflexivity|].
    unfold propagated in Hok.
    repeat (destruct Hin as [Hin|Hin]; try discriminate Hin);
      try (injection Hin as <- <-; vm_compute in Hok; discriminate Hok).
    destruct Hin.
  - destruct (Hc [EKeyringInstall "new" None; ESleep 10;
                  EKeyringList [Scenario.new_on_one] None;
                  ELog Error "=== keyringList: %v";
                  ELog Error " keys: %v: %v";
                  ELog Error "found updated key"]
                 None [])
      as (r & rs & Hin & Hok); [vm_compute; reflexivity|].
    unfold propagated in Hok.
    repeat (destruct Hin as [Hin|Hin]; try discriminate Hin);
      try (injection Hin as <- <-; vm_compute in Hok; discriminate Hok).
    destruct Hin.
Qed.

(** C2 (amended). In both commands, every [KeyringUse] on the new key comes
    after a successful [KeyringList] of the same run whose first response
    lists that key; the count reported for the key is not looked at. *)
Theorem promotion_only_of_a_listed_key
    {W : Type} `{Env W} (key : string) (w : W) :
  promoted_only_after listed key (trace (RotationSidecar.installKey key w)) /\
  promoted_only_after listed key (trace (Rotatoe.installKey key w)).
Proof.
  split; [apply rs_installKey_promotes_listed|apply rt_installKey_promotes_listed].
Qed.

(** ** The loop of rotation-sidecar *)

Section RotationSidecarFacts.
Context {W : Type} `{Env W}.
Variable file : string.
Variable podIP : string.

Lemma rs_installKey_no_read (key : string) (w : W) :
  Forall (fun e => is_read e = false)
         (trace (RotationSidecar.installKey key w)).
Proof.
  pose proof (Forall_compositional (fun e => is_read e = false)) as HP.
  unfold RotationSidecar.installKey, RotationSidecar.poll_body,
    RotationSidecar.promote_body, RotationSidecar.remove_body.
  unfold_calls. trace_walk HP.
  all: repeat constructor.
Qed.

(** A reception either ends without reaching the [Write] case, keeping the
    checksum, or runs [on_write] after the leadership check. *)
Lemma rs_select_stmt_shape (r : RotationSidecar.recv) (cur : list Z) (w : W) :
  let res := RotationSidecar.select_stmt file podIP r cur w in
  (Forall idle (trace res) /\
   forall c cur', out res = Ret (c, cur') -> cur' = cur) \/
  (exists pre w',
      Forall idle pre /\
      trace res = pre ++ trace (RotationSidecar.on_write file cur w') /\
      out res = end_select (out (RotationSidecar.on_write file cur w'))).
Proof.
  intros res. subst res.
  unfold RotationSidecar.select_stmt, RotationSidecar.select_cases.
  destruct r as [ev|err| |]; unfold_calls; mstep.
  2-4: left; mfin; split; [repeat constructor|congruence].
  destruct (String.eqb _ _); mstep.
  { left; mfin; split; [repeat constructor|congruence]. }
  destruct (Split_cons (env_Leader w).1.1 ":") as (p & ps & ->). mstep.
  destruct (negb _); mstep.
  { left; mfin; split; [repeat constructor|congruence]. }
  assert (Hwrap : forall w',
    let ow := RotationSidecar.on_write file cur w' in
    let res := bind (RotationSidecar.on_write file cur)
          (fun x => ret (match x.1 with Break => Normal | c => c end, x.2)) w' in
    trace res = trace ow /\ out res = end_select (out ow)).
  { intros w' ow res. subst ow res. unfold bind, end_select.
    destruct (out (RotationSidecar.on_write file cur w')) as [[c0 cur0]| |];
      mfin; rewrite ?app_nil_r; split; reflexivity. }
  destruct (Z.eqb _ _); mstep.
  - right.
    destruct (Hwrap (env_WatcherAdd (Name ev) (env_Leader w).2).2) as [Ht Ho].
    eexists [_; _], _. split; [|split]; cycle 1.
    { cbn [app]; rewrite Ht; reflexivity. }
    { exact Ho. }
    repeat constructor.
  - destruct (Z.eqb _ _); mstep.
    + right. destruct (Hwrap (env_Leader w).2) as [Ht Ho].
      eexists [_], _. split; [|split]; cycle 1.
      { cbn [app]; rewrite Ht; reflexivity. }
      { exact Ho. }
      repeat constructor.
    + left; mfin; split; [repeat constructor|congruence].
Qed.

(** The [select] statement never hands a [break] to the loop. *)
Lemma rs_select_stmt_no_break
    (r : RotationSidecar.recv) (cur : list Z) (w : W) (cur' : list Z) :
  out (RotationSidecar.select_stmt file podIP r cur w) <> Ret (Break, cur').
Proof.
  unfold RotationSidecar.select_stmt. intros Hout.
  apply bind_out_Ret in Hout as ([c0 x0] & _ & Hout).
  destruct c0; discriminate Hout.
Qed.

(** So the loop is never left: however many receptions it has handled, it
    is waiting for the next one, unless it panicked or blocked. *)
Lemma rs_for_select_never_left :
  forall (rs : list RotationSidecar.recv) (cur : list Z) (w : W)
         (st : RotationSidecar.loop_state),
  out (RotationSidecar.for_select file podIP rs cur w) = Ret st ->
  exists cur', st = RotationSidecar.Selecting cur'.
Proof.
  induction rs as [|r rs IH]; intros cur w st Hout.
  - cbn in Hout. injection Hout as <-. eauto.
  - cbn [RotationSidecar.for_select] in Hout.
    apply bind_out_Ret in Hout as ([c cur'] & Hsel & Hout).
    cbn [fst snd] in Hout.
    destruct c; [eapply IH; eassumption| |eapply IH; eassumption].
    exfalso. exact (rs_select_stmt_no_break _ _ _ _ Hsel).
Qed.

(** A signal leaves no mark: the loop goes on as if it had not come. *)
Lemma rs_signal_is_skipped
    (rs : list RotationSidecar.recv) (cur : list Z) (w : W) :
  RotationSidecar.for_select file podIP (RotationSidecar.RecvSignal :: rs) cur w
  = RotationSidecar.for_select file podIP rs cur w.
Proof.
  cbn [RotationSidecar.for_select].
  unfold RotationSidecar.select_stmt, RotationSidecar.select_cases.
  mstep. reflexivity.
Qed.

Lemma rs_on_write_read_error (cur : list Z) (w : W) path data e :
  let res := RotationSidecar.on_write file cur w in
  In (EReadFile path data (Some e)) (trace res) ->
  quiet (trace res) /\ out res = Ret (Continue, cur).
Proof.
  intros res. subst res. unfold RotationSidecar.on_write.
  unfold_calls; mstep.
  destruct (env_ReadFile file w) as [[d [err|]] w1]; mstep; mfin.
  - intros _. split; [repeat constructor|reflexivity].
  - intros Hin. exfalso.
    destruct Hin as [Hin|[Hin|Hin]]; try discriminate Hin.
    destruct (bool_decide _); mstep; [|destruct Hin].
    destruct Hin as [Hin|Hin]; [discriminate Hin|].
    pose proof (rs_installKey_no_read d w1) as Hno.
    apply bind_In in Hin as [Hin|(a & _ & Hin)].
    + apply (proj1 (List.Forall_forall _ _) Hno) in Hin. discriminate Hin.
    + destruct a; destruct Hin.
Qed.

Lemma rs_on_write_same_content (data : string) (w : W) :
  let res := RotationSidecar.on_write file (Md5.Sum data) w in
  reads_only data (trace res) ->
  quiet (trace res) /\ exists c, out res = Ret (c, Md5.Sum data).
Proof.
  intros res. subst res. unfold RotationSidecar.on_write.
  unfold_calls; mstep.
  destruct (env_ReadFile file w) as [[d [err|]] w1]; mstep; mfin.
  - intros _. split; [repeat constructor|eauto].
  - intros Hr. assert (d = data) as ->.
    { apply (Hr file d None). right. left. reflexivity. }
    rewrite bool_decide_eq_false_2 by (intros Hne; apply Hne; reflexivity).
    mfin. split; [repeat constructor|eauto].
Qed.

Lemma rs_select_stmt_same_content
    (r : RotationSidecar.recv) (data : string) (w : W) :
  let res := RotationSidecar.select_stmt file podIP r (Md5.Sum data) w in
  reads_only data (trace res) ->
  quiet (trace res) /\
  forall c cur', out res = Ret (c, cur') -> cur' = Md5.Sum data.
Proof.
  intros res Hr. subst res.
  destruct (rs_select_stmt_shape r (Md5.Sum data) w)
    as [[Hidle Hsame]|(pre & w' & Hpre & Ht & Ho)].
  - split; [apply idle_quiet; assumption|assumption].
  - rewrite Ht in Hr |- *. rewrite Ho.
    apply reads_only_app in Hr as [_ Hr].
    apply rs_on_write_same_content in Hr as [Hq [c0 Hout]].
    rewrite Hout. split.
    + apply Forall_app. split; [apply idle_quiet; assumption|assumption].
    + cbn. congruence.
Qed.

Lemma rs_for_select_same_content (data : string) :
  forall (rs : list RotationSidecar.recv) (w : W),
  let res := RotationSidecar.for_select file podIP rs (Md5.Sum data) w in
  reads_only data (trace res) ->
  quiet (trace res) /\
  forall st, out res = Ret st -> st = RotationSidecar.Selecting (Md5.Sum data).
Proof.
  induction rs as [|r rs IH]; intros w res Hr; subst res.
  - cbn. split; [constructor|congruence].
  - cbn [RotationSidecar.for_select] in *.
    destruct (out (RotationSidecar.select_stmt file podIP r (Md5.Sum data) w))
      as [[c cur']| |] eqn:Hout.
    + rewrite (bind_run _ _ _ _ Hout) in *. cbn [prepend out trace fst snd] in *.
      apply reads_only_app in Hr as [Hr1 Hr2].
      destruct (rs_select_stmt_same_content r data w Hr1) as [Hq Hc].
      specialize (Hc _ _ Hout). subst cur'.
      destruct c; [|exfalso; exact (rs_select_stmt_no_break _ _ _ _ Hout)|];
        destruct (IH _ Hr2) as [Hq2 Hst];
        (split; [apply Forall_app; split; assumption|exact Hst]).
    + unfold bind in *. rewrite Hout in *. cbn [out trace] in *.
      destruct (rs_select_stmt_same_content r data w Hr) as [Hq _].
      split; [assumption|congruence].
    + unfold bind in *. rewrite Hout in *. cbn [out trace] in *.
      destruct (rs_select_stmt_same_content r data w Hr) as [Hq _].
      split; [assumption|congruence].
Qed.

End RotationSidecarFacts.

(** ** The loop of rotatoe *)

Section RotatoeFacts.
Context {W : Type} `{Env W}.
Variable file : string.

Lemma rt_iteration_same_content (data : string) (w : W) :
  let cur := Crc32.Checksum data Crc32.Castagnoli in
  let res := Rotatoe.iteration file cur w in
  reads_only data (trace res) ->
  quiet (trace res) /\ out res = Ret cur.
Proof.
  intros cur res. subst cur res. unfold Rotatoe.iteration.
  unfold_calls; mstep.
  destruct (env_ReadFile file w) as [[d err] w1]; mstep.
  intros Hr. assert (d = data) as ->.
  { eapply (Hr file d err). right; left; reflexivity. }
  clear Hr. rewrite Z.eqb_refl. cbn [negb].
  destruct err; mstep; mfin; split; try reflexivity; repeat constructor.
Qed.

Lemma rt_iterations_same_content (data : string) :
  forall (n : nat) (w : W),
  let cur := Crc32.Checksum data Crc32.Castagnoli in
  let res := Rotatoe.iterations file n cur w in
  reads_only data (trace res) ->
  quiet (trace res) /\ out res = Ret cur.
Proof.
  induction n as [|n IH]; intros w cur res Hr; subst cur res.
  - cbn. split; [constructor|reflexivity].
  - cbn [Rotatoe.iterations] in *.
    destruct (out (Rotatoe.iteration file (Crc32.Checksum data Crc32.Castagnoli) w))
      as [c| |] eqn:Hout.
    + rewrite (bind_run _ _ _ _ Hout) in *. cbn [prepend out trace] in *.
      apply reads_only_app in Hr as [Hr1 Hr2].
      destruct (rt_iteration_same_content data w Hr1) as [Hq Hc].
      rewrite Hout in Hc. injection Hc as ->.
      destruct (IH _ Hr2) as [Hq2 Hst].
      split; [apply Forall_app; split; assumption|exact Hst].
    + unfold bind in *. rewrite Hout in *. cbn [out trace] in *.
      destruct (rt_iteration_same_content data w Hr) as [_ Hc]. congruence.
    + unfold bind in *. rewrite Hout in *. cbn [out trace] in *.
      destruct (rt_iteration_same_content data w Hr) as [_ Hc]. congruence.
Qed.

(** A turn of rotatoe's loop leaves in [currentCRC] the checksum of what it
    read, whatever [installKey] did. *)
Lemma rt_iteration_commits_at_detection (cur c : Z) (w : W) :
  out (Rotatoe.iteration file cur w) = Ret c ->
  c = Crc32.Checksum (env_ReadFile file w).1.1 Crc32.Castagnoli.
Proof.
  unfold Rotatoe.iteration. unfold_calls. mstep.
  destruct (env_ReadFile file w) as [[d err] w1]; mstep.
  assert (Hgo : forall w',
    out ((log Error "===== checksum: %s / %s " ;;;
          if negb (Z.eqb (Crc32.Checksum d Crc32.Castagnoli) cur) then
            err <- Rotatoe.installKey d ;;
            log Error " ========== FINISHED UPDATING GOSSIP KEY =========" ;;;
            ret (Crc32.Checksum d Crc32.Castagnoli)
          else ret cur) w') = Ret c ->
    c = Crc32.Checksum d Crc32.Castagnoli).
  { intros w'. unfold_calls. mstep.
    destruct (Z.eqb_spec (Crc32.Checksum d Crc32.Castagnoli) cur) as [Heq|Hneq];
      cbn [negb].
    - mfin. congruence.
    - intros Hout. apply bind_out_Ret in Hout as (e & _ & Hout).
      revert Hout. mstep. mfin. congruence. }
  destruct err; mstep; apply Hgo.
Qed.

End RotatoeFacts.

(** ** Leadership *)

(** C3, as stated, fails on rotatoe, which never asks who the leader is:
    while the leader cannot be determined, a turn of its loop that finds the
    file changed calls [KeyringInstall] and [KeyringUse]. *)
Lemma rotatoe_mutates_without_leadership :
  ~ leader_only (env_Leader Scenario.leader_unknown).1.1 Scenario.podIP
      (trace (Rotatoe.iteration Scenario.file
                (Crc32.Checksum "old" Crc32.Castagnoli)
                Scenario.leader_unknown)).
Proof.
  intros Hc. specialize (Hc eq_refl).
  assert (Hm : mutations (trace (Rotatoe.iteration Scenario.file
                                   (Crc32.Checksum "old" Crc32.Castagnoli)
                                   Scenario.leader_unknown))
               = [EKeyringInstall "new" None; EKeyringUse "new" None])
    by (vm_compute; reflexivity).
  rewrite (proj1 (quiet_mutations _) Hc) in Hm. discriminate Hm.
Qed.

(** C3 (amended). In rotation-sidecar, a reception handled while the leader
    reported by [Status().Leader()] is empty, or has a host part other than
    [POD_IP], makes no call that changes the keyring and leaves the committed
    checksum as it was; the error returned with the leader is not looked
    at. *)
Theorem rs_unauthorized_reception_is_quiet
    {W : Type} `{Env W} (file podIP : string)
    (r : RotationSidecar.recv) (cur : list Z) (w : W) :
  authorized (env_Leader w).1.1 podIP = false ->
  let res := RotationSidecar.select_stmt file podIP r cur w in
  quiet (trace res) /\ forall c cur', out res = Ret (c, cur') -> cur' = cur.
Proof.
  intros Hauth res. subst res.
  unfold RotationSidecar.select_stmt, RotationSidecar.select_cases.
  destruct r as [ev|err| |]; unfold_calls; mstep.
  - unfold authorized in Hauth.
    destruct (String.eqb (env_Leader w).1.1 "") eqn:Hl; mstep.
    + mfin. split; [constructor; [reflexivity|constructor]|]. congruence.
    + destruct (Split_cons (env_Leader w).1.1 ":") as (p & ps & Hs).
      rewrite Hs in Hauth |- *. cbn in Hauth. mstep.
      rewrite Hauth. cbn [negb]. mstep.
      mfin. split; [constructor; [reflexivity|constructor]|]. congruence.
  - mfin. split; [constructor|]. congruence.
  - mfin. split; [repeat constructor|]. congruence.
  - mfin. split; [constructor|]. congruence.
Qed.

Lemma rs_unauthorized_reception_is_quiet_witness :
  quiet (trace (RotationSidecar.select_stmt Scenario.file Scenario.podIP
                  (RotationSidecar.RecvEvent Scenario.write_event)
                  (Md5.Sum "old") Scenario.not_leader)).
Proof.
  exact (proj1 (rs_unauthorized_reception_is_quiet
                  Scenario.file Scenario.podIP
                  (RotationSidecar.RecvEvent Scenario.write_event)
                  (Md5.Sum "old") Scenario.not_leader eq_refl)).
Defined.

(** ** Reads that fail or come back empty *)

(** C4, as stated, fails on an empty buffer: rotation-sidecar, with the
    leader, reads the file empty without error, finds its checksum new and
    calls [KeyringInstall] on the empty key. *)
Lemma empty_read_is_installed :
  ~ tolerates_bad_read
      (trace (RotationSidecar.select_stmt Scenario.file Scenario.podIP
                (RotationSidecar.RecvEvent Scenario.write_event)
                (Md5.Sum "old") Scenario.empty_read)).
Proof.
  intros Hc.
  specialize (Hc Scenario.file EmptyString None).
  assert (Hin : In (EKeyringInstall "" None)
                  (trace (RotationSidecar.select_stmt Scenario.file Scenario.podIP
                            (RotationSidecar.RecvEvent Scenario.write_event)
                            (Md5.Sum "old") Scenario.empty_read))).
  { vm_compute. do 7 right. left. reflexivity. }
  apply (proj1 (List.Forall_forall _ _) (Hc ltac:(vm_compute; do 2 right; left; reflexivity)
                                            (or_intror eq_refl))) in Hin.
  discriminate Hin.
Qed.

(** C4 (amended). In rotation-sidecar, a reception whose read of the watched
    file returns an error makes no call that changes the keyring, keeps the
    committed checksum and goes on to the next reception. An empty buffer
    read without error is not told apart from any other content. *)
Theorem rs_read_error_starts_no_rotation
    {W : Type} `{Env W} (file podIP : string)
    (r : RotationSidecar.recv) (cur : list Z) (w : W)
    (path data e : string) :
  let res := RotationSidecar.select_stmt file podIP r cur w in
  In (EReadFile path data (Some e)) (trace res) ->
  quiet (trace res) /\ out res = Ret (Continue, cur).
Proof.
  intros res Hin. subst res.
  destruct (rs_select_stmt_shape file podIP r cur w)
    as [[Hidle _]|(pre & w' & Hpre & Ht & Ho)].
  - apply (idle_not_read _ _ Hidle) in Hin. discriminate Hin.
  - rewrite Ht in Hin |- *. rewrite Ho.
    apply in_app_or in Hin as [Hin|Hin].
    { apply (idle_not_read _ _ Hpre) in Hin. discriminate Hin. }
    apply rs_on_write_read_error in Hin as [Hq Hout].
    rewrite Hout. split; [|reflexivity].
    apply Forall_app. split; [apply idle_quiet; assumption|assumption].
Qed.

Lemma rs_read_error_starts_no_rotation_witness :
  out (RotationSidecar.select_stmt Scenario.file Scenario.podIP
         (RotationSidecar.RecvEvent Scenario.write_event)
         (Md5.Sum "old") Scenario.unreadable)
  = Ret (Continue, Md5.Sum "old").
Proof.
  refine (proj2 (rs_read_error_starts_no_rotation
                   Scenario.file Scenario.podIP
                   (RotationSidecar.RecvEvent Scenario.write_event)
                   (Md5.Sum "old") Scenario.unreadable
                   Scenario.file "" "permission denied" _)).
  vm_compute. do 2 right. left. reflexivity.
Defined.

(** ** When the checksum is committed *)

Lemma In_mutations (e : event) (t : list event) :
  In e t -> mutating e = true -> In e (mutations t).
Proof. intros Hin He. apply List.filter_In. split; assumption. Qed.

(** C5, as stated, fails in both commands. rotatoe replaces its checksum
    when it detects the change: with every keyring call refused, the first
    turn leaves the new checksum and the second turn, reading the same
    bytes, calls nothing. rotation-sidecar replaces its checksum when
    [installKey] returns [nil], which it also does after a hundred failed
    polls, the new key neither promoted nor the old one removed. *)
Lemma checksum_committed_without_promotion :
  (out (Rotatoe.iterations Scenario.file 2
          (Crc32.Checksum "old" Crc32.Castagnoli) Scenario.nothing_works)
   = Ret (Crc32.Checksum "new" Crc32.Castagnoli) /\
   mutations (trace (Rotatoe.iterations Scenario.file 2
                       (Crc32.Checksum "old" Crc32.Castagnoli)
                       Scenario.nothing_works))
   = [EKeyringInstall "new" Script.eof] /\
   ~ commits_only_after_promotion "new"
       (Crc32.Checksum "old" Crc32.Castagnoli)
       (Crc32.Checksum "new" Crc32.Castagnoli)
       (trace (Rotatoe.iterations Scenario.file 2
                 (Crc32.Checksum "old" Crc32.Castagnoli)
                 Scenario.nothing_works))) /\
  (out (RotationSidecar.select_stmt Scenario.file Scenario.podIP
          (RotationSidecar.RecvEvent Scenario.write_event)
          (Md5.Sum "old") Scenario.lists_fail)
   = Ret (Normal, Md5.Sum "new") /\
   polls (trace (RotationSidecar.select_stmt Scenario.file Scenario.podIP
                   (RotationSidecar.RecvEvent Scenario.write_event)
                   (Md5.Sum "old") Scenario.lists_fail)) = 100 /\
   ~ commits_only_after_promotion "new" (Md5.Sum "old") (Md5.Sum "new")
       (trace (RotationSidecar.select_stmt Scenario.file Scenario.podIP
                 (RotationSidecar.RecvEvent Scenario.write_event)
                 (Md5.Sum "old") Scenario.lists_fail))).
Proof.
  assert (Hrt : mutations (trace (Rotatoe.iterations Scenario.file 2
                                    (Crc32.Checksum "old" Crc32.Castagnoli)
                                    Scenario.nothing_works))
                = [EKeyringInstall "new" Script.eof])
    by (vm_compute; reflexivity).
  assert (Hrs : mutations (trace (RotationSidecar.select_stmt
                                    Scenario.file Scenario.podIP
                                    (RotationSidecar.RecvEvent Scenario.write_event)
                                    (Md5.Sum "old") Scenario.lists_fail))
                = [EKeyringInstall "new" None])
    by (vm_compute; reflexivity).
  split; (split; [vm_compute; reflexivity|split]).
  - exact Hrt.
  - intros Hc.
    assert (Hne : Crc32.Checksum "new" Crc32.Castagnoli
                  <> Crc32.Checksum "old" Crc32.Castagnoli)
      by (vm_compute; discriminate).
    pose proof (In_mutations _ _ (Hc Hne) eq_refl) as Hin.
    rewrite Hrt in Hin. destruct Hin as [Hin|[]]. discriminate Hin.
  - vm_compute; reflexivity.
  - intros Hc.
    assert (Hne : Md5.Sum "new" <> Md5.Sum "old") by (vm_compute; discriminate).
    pose proof (In_mutations _ _ (Hc Hne) eq_refl) as Hin.
    rewrite Hrs in Hin. destruct Hin as [Hin|[]]. discriminate Hin.
Qed.

(** C5 (amended). In rotation-sidecar, when the file is read without error
    and its MD5 differs from the committed checksum, [installKey] is run on
    what was read, and the checksum is replaced exactly when that run
    returns [nil]: never before it, and not when it returns an error, so
    that the same content is found changed at the next reception that reads
    it. That [installKey] returned [nil] does not tell that the key was
    promoted. *)
Theorem rs_checksum_follows_installKey
    {W : Type} `{Env W} (file : string)
    (cur : list Z) (w w1 : W) (data : string) :
  env_ReadFile file w = ((data, None), w1) ->
  Md5.Sum data <> cur ->
  let res := RotationSidecar.on_write file cur w in
  let attempt := RotationSidecar.installKey data w1 in
  trace res =
    [ELog Info "Write detected, checking to see if the file changed";
     EReadFile file data None;
     ELog Info "New Encryption Key, executing rotation: "] ++ trace attempt /\
  (out attempt = Ret None -> out res = Ret (Normal, Md5.Sum data)) /\
  (forall e, out attempt = Ret (Some e) -> out res = Ret (Normal, cur)) /\
  (forall c cur', out res = Ret (c, cur') -> cur' <> cur ->
     out attempt = Ret None /\ cur' = Md5.Sum data).
Proof.
  intros Hread Hne res attempt. subst res.
  unfold RotationSidecar.on_write. unfold_calls. mstep. rewrite Hread. mstep.
  rewrite bool_decide_eq_true_2 by assumption. mstep. fold attempt.
  destruct (out attempt) as [[e|]| |] eqn:Hout.
  - rewrite (bind_run _ _ _ _ Hout). mstep. mfin. rewrite app_nil_r.
    repeat split; try congruence.
  - rewrite (bind_run _ _ _ _ Hout). mstep. mfin. rewrite app_nil_r.
    repeat split; try congruence.
  - unfold bind. fold attempt. rewrite Hout. cbn [out trace].
    repeat split; congruence.
  - unfold bind. fold attempt. rewrite Hout. cbn [out trace].
    repeat split; congruence.
Qed.

Lemma rs_checksum_follows_installKey_witness :
  out (RotationSidecar.on_write Scenario.file (Md5.Sum "old")
         Scenario.rotation_goes_through)
  = Ret (Normal, Md5.Sum "new").
Proof.
  refine (proj1 (proj2 (rs_checksum_follows_installKey
                          Scenario.file (Md5.Sum "old")
                          Scenario.rotation_goes_through _ "new"
                          eq_refl _)) _).
  - vm_compute. discriminate.
  - vm_compute. reflexivity.
Defined.

(** ** Detection on unchanged content *)

Lemma reads_onlyb_sound (data : string) (t : list event) :
  reads_onlyb data t = true -> reads_only data t.
Proof.
  unfold reads_onlyb. intros Hb path d err Hin.
  apply (proj1 (forallb_forall _ _) Hb) in Hin.
  apply String.eqb_eq. exact Hin.
Qed.

(** C9. Once the checksum of some bytes is committed, receptions (in
    rotation-sidecar) and turns of the loop (in rotatoe) that read those same
    bytes, however many, make no call that changes the keyring and keep the
    checksum. *)
Theorem same_content_triggers_nothing
    {W : Type} `{Env W} (file podIP : string) (data : string) :
  (forall (rs : list RotationSidecar.recv) (w : W),
      let res := RotationSidecar.for_select file podIP rs (Md5.Sum data) w in
      reads_only data (trace res) ->
      quiet (trace res) /\
      forall st, out res = Ret st ->
                 st = RotationSidecar.Selecting (Md5.Sum data)) /\
  (forall (n : nat) (w : W),
      let cur := Crc32.Checksum data Crc32.Castagnoli in
      let res := Rotatoe.iterations file n cur w in
      reads_only data (trace res) ->
      quiet (trace res) /\ out res = Ret cur).
Proof.
  split.
  - apply rs_for_select_same_content.
  - apply rt_iterations_same_content.
Qed.

Lemma same_content_triggers_nothing_witness :
  quiet (trace (RotationSidecar.for_select Scenario.file Scenario.podIP
                  [RotationSidecar.RecvEvent Scenario.write_event;
                   RotationSidecar.RecvTimer;
                   RotationSidecar.RecvEvent Scenario.write_event]
                  (Md5.Sum "new") Scenario.same_content)) /\
  quiet (trace (Rotatoe.iterations Scenario.file 2
                  (Crc32.Checksum "new" Crc32.Castagnoli)
                  Scenario.same_content)).
Proof.
  split.
  - refine (proj1 (proj1 (same_content_triggers_nothing
                            Scenario.file Scenario.podIP "new") _ _ _)).
    apply reads_onlyb_sound. vm_compute. reflexivity.
  - refine (proj1 (proj2 (same_content_triggers_nothing
                            Scenario.file Scenario.podIP "new") _ _ _)).
    apply reads_onlyb_sound. vm_compute. reflexivity.
Defined.

(** ** What [installKey] returns *)

Section FirstPoll.
Context {W : Type} `{Env W}.
Variable key : string.

Lemma rs_promote_body_goes_on (x : string) (w : W) :
  exists c,
    out (RotationSidecar.promote_body key x w) = Ret (Go_on c) /\ c <> Break.
Proof.
  unfold RotationSidecar.promote_body. unfold_calls.
  destruct (String.eqb x key); mstep; [|mfin; exists Normal; split; congruence].
  destruct (env_KeyringUse key w).1; mstep; mfin;
    eexists; split; try reflexivity; congruence.
Qed.

Lemma rs_remove_body_goes_on (x : string) (w : W) :
  exists c,
    out (RotationSidecar.remove_body key x w) = Ret (Go_on c) /\ c <> Break.
Proof.
  unfold RotationSidecar.remove_body. unfold_calls.
  destruct (negb (String.eqb x key)); mstep;
    [|mfin; exists Normal; split; congruence].
  destruct (env_KeyringRemove x w).1; mstep; mfin;
    eexists; split; try reflexivity; congruence.
Qed.

Lemma rs_loops_do_not_sleep (xs : list string) (w : W) :
  Forall (fun e => is_sleep e = false)
    (trace (for_range xs (RotationSidecar.promote_body key) w)) /\
  Forall (fun e => is_sleep e = false)
    (trace (for_range xs (RotationSidecar.remove_body key) w)).
Proof.
  pose proof (Forall_compositional (fun e => is_sleep e = false)) as HP.
  split; apply (for_range_trace _ HP); intros x w';
    unfold RotationSidecar.promote_body, RotationSidecar.remove_body;
    unfold_calls; trace_walk HP; cbn; repeat constructor.
Qed.

(** With both lists and the install answered, the first poll iteration runs
    both [range] loops to their end and returns [nil]. *)
Lemma rs_installKey_first_poll
    (w w1 w2 w3 : W) (r0 r : KeyringResponse) (rs0 rs : list KeyringResponse) :
  env_KeyringList w = ((r0 :: rs0, None), w1) ->
  env_KeyringInstall key w1 = (None, w2) ->
  env_KeyringList w2 = ((r :: rs, None), w3) ->
  exists t1 t2 w',
    RotationSidecar.installKey key w =
    Result (Ret None) w'
      ([EKeyringList (r0 :: rs0) None; ELog Info "Old primary keys: ";
        ELog Info "Installing new key: "; EKeyringInstall key None;
        ESleep 1; EKeyringList (r :: rs) None]
         ++ t1 ++ t2 ++ [ELog Info "Key rotation completed: "]) /\
    Forall (fun e => is_sleep e = false) t1 /\
    Forall (fun e => is_sleep e = false) t2.
Proof.
  intros H0 H1 H2.
  unfold RotationSidecar.installKey. unfold_calls. mstep.
  rewrite H0. mstep. rewrite H1. mstep.
  change 100%nat with (S 99). rewrite for_times_S.
  unfold RotationSidecar.poll_body. unfold_calls.
  mstep. rewrite H2. mstep.
  set (xs := (env_range (Keys r) w3).1). set (w4 := (env_range (Keys r) w3).2).
  pose proof (for_range_runs _ rs_promote_body_goes_on xs w4) as Hp.
  destruct (rs_loops_do_not_sleep xs w4) as [Hs1 _].
  rewrite (bind_run _ _ _ _ Hp). mstep.
  set (w5 := world (for_range xs (RotationSidecar.promote_body key) w4)).
  set (ys := (env_range (Keys r) w5).1). set (w6 := (env_range (Keys r) w5).2).
  pose proof (for_range_runs _ rs_remove_body_goes_on ys w6) as Hq.
  destruct (rs_loops_do_not_sleep ys w6) as [_ Hs2].
  rewrite (bind_run _ _ _ _ Hq). mstep. mfin.
  eexists _, _, _. split; [|split; [exact Hs1|exact Hs2]].
  rewrite app_nil_r, <- !app_assoc. reflexivity.
Qed.

End FirstPoll.

(** C10, as stated, fails when the list that follows the install succeeds
    with no response in it: [keyringList[0]] panics, and [installKey]
    returns nothing. *)
Lemma empty_polled_list_does_not_return_nil :
  ~ returns_nil_after_first_list "new" Scenario.polled_list_empty.
Proof.
  intros Hc.
  specialize (Hc _ _ _ _ _ _ eq_refl eq_refl eq_refl).
  assert (Hp : out (RotationSidecar.installKey "new" Scenario.polled_list_empty)
               = Panic "index out of range [0] with length 0")
    by (vm_compute; reflexivity).
  rewrite Hp in Hc. discriminate Hc.
Qed.

(** C10 (amended). In rotation-sidecar, when the install succeeds and the
    list of the first poll iteration succeeds with at least one response,
    [installKey] returns [nil] in that iteration, whether or not the new key
    is listed, whatever [KeyringUse] and [KeyringRemove] answer; [Run] then
    commits the checksum of the new content. *)
Theorem rs_installKey_nil_after_first_list
    {W : Type} `{Env W} (file key : string)
    (w w1 w2 w3 : W) (r0 r : KeyringResponse) (rs0 rs : list KeyringResponse) :
  env_KeyringList w = ((r0 :: rs0, None), w1) ->
  env_KeyringInstall key w1 = (None, w2) ->
  env_KeyringList w2 = ((r :: rs, None), w3) ->
  let res := RotationSidecar.installKey key w in
  out res = Ret None /\
  polls (trace res) = 1%nat /\
  forall (cur : list Z) (w0 : W),
    env_ReadFile file w0 = ((key, None), w) ->
    Md5.Sum key <> cur ->
    out (RotationSidecar.on_write file cur w0) = Ret (Normal, Md5.Sum key).
Proof.
  intros H0 H1 H2 res.
  destruct (rs_installKey_first_poll key _ _ _ _ _ _ _ _ H0 H1 H2)
    as (t1 & t2 & w' & Hres & Hs1 & Hs2).
  assert (Hout : out res = Ret None) by (subst res; rewrite Hres; reflexivity).
  split; [exact Hout|]. split.
  - subst res. rewrite Hres. cbn [trace].
    rewrite !polls_app, (polls_none _ Hs1), (polls_none _ Hs2). reflexivity.
  - intros cur w0 Hread Hne.
    unfold RotationSidecar.on_write. unfold_calls. mstep. rewrite Hread. mstep.
    rewrite bool_decide_eq_true_2 by assumption. mstep.
    fold res. rewrite (bind_run _ _ _ _ Hout). mstep. mfin. reflexivity.
Qed.

Lemma rs_installKey_nil_after_first_list_witness :
  out (RotationSidecar.installKey "new" Scenario.all_refused) = Ret None.
Proof.
  exact (proj1 (rs_installKey_nil_after_first_list
                  Scenario.file "new" Scenario.all_refused _ _ _ _ _ _ _
                  eq_refl eq_refl eq_refl)).
Defined.

(** ** Signals, the timer, and responses with nothing in them *)

(** C6 (the code departs from it). The [break] of line 140 ends the
    [select], not the [for]: after a signal the loop handles the next
    reception as usual, here a write that sets off a whole rotation. *)
Theorem rs_loop_goes_on_after_signal :
  out (RotationSidecar.for_select Scenario.file Scenario.podIP
         [RotationSidecar.RecvSignal;
          RotationSidecar.RecvEvent Scenario.write_event]
         (Md5.Sum "old") Scenario.rotation_goes_through)
  = Ret (RotationSidecar.Selecting (Md5.Sum "new")) /\
  mutations (trace (RotationSidecar.for_select Scenario.file Scenario.podIP
                      [RotationSidecar.RecvSignal;
                       RotationSidecar.RecvEvent Scenario.write_event]
                      (Md5.Sum "old") Scenario.rotation_goes_through))
  = [EKeyringInstall "new" None; EKeyringUse "new" None;
     EKeyringRemove "old" None].
Proof. split; vm_compute; reflexivity. Qed.

(** [Run] returns only from its first read: once in the loop it never
    returns, signal or not. *)
Lemma rs_Run_returns_only_on_first_read
    {W : Type} `{Env W} (file podIP : string)
    (rs : list RotationSidecar.recv) (w : W) (code : Z) :
  out (RotationSidecar.Run file podIP rs w) = Ret (Some code) ->
  code = 1%Z /\ (env_ReadFile file w).1.2 <> None.
Proof.
  unfold RotationSidecar.Run. unfold_calls. mstep.
  destruct (env_ReadFile file w) as [[data [err|]] w1]; mstep; mfin.
  - intros [= <-]. split; [reflexivity|discriminate].
  - intros Hout. apply bind_out_Ret in Hout as (st & _ & Hout).
    destruct st; discriminate Hout.
Qed.

(** C7 (the code departs from it). When [time.After] fires, the loop logs
    one line and waits again: the file is not read, nothing is compared, and
    the checksum and the environment are as before. *)
Theorem rs_timer_only_logs
    {W : Type} `{Env W} (file podIP : string) (cur : list Z) (w : W) :
  RotationSidecar.select_stmt file podIP RotationSidecar.RecvTimer cur w
  = Result (Ret (Normal, cur)) w [ELog Info "Reconcile Timer."].
Proof. reflexivity. Qed.

(** C8 (the code departs from it). A [KeyringList] that succeeds with no
    response in it makes [installKey] panic on [keyringList[0]]: in
    rotation-sidecar at the first list and at a polled one, in rotatoe at a
    polled one. *)
Theorem installKey_panics_on_empty_list :
  out (RotationSidecar.installKey "new" Scenario.first_list_empty)
  = Panic "index out of range [0] with length 0" /\
  out (RotationSidecar.installKey "new" Scenario.polled_list_empty)
  = Panic "index out of range [0] with length 0" /\
  out (Rotatoe.installKey "new" Scenario.first_list_empty)
  = Panic "index out of range [0] with length 0".
Proof. repeat split; vm_compute; reflexivity. Qed.
